(** * Penrose analytics tracker: event queue, page state and unload handling

  A shallow embedding of the TypeScript sources
  - [src/PageStateManager.ts]  (lifecycle, idle and scroll state),
  - [src/EventQueue.ts]        (FIFO queue, retry, localStorage spooling),
  - [src/Tracker.ts]           (property layers and the unload handler),
  together with the properties the specification states about them.

  Conventions.  Times are milliseconds in [Z].  [Date.now()] is an explicit
  argument.  A [setTimeout] is a pending entry with its due time; an awaited
  promise is a pending entry that the environment settles later.  Each
  definition carries the name of the method it embeds. *)

From Stdlib Require Import ZArith QArith Qround Lia.
From stdpp Require Import gmap strings list pretty.

Open Scope Z_scope.

(** ** PageStateManager *)

Module PageState.

Inductive PageLifecycleState := active | passive | hidden | frozen | terminated.

Record t := mk {
  state : PageLifecycleState;
  stateStartTime : Z;
  activeDuration : Z;
  scrollDepth : Z;
  maxScrollDepth : Z;
  isIdle : bool;
  idleStartTime : option Z
}.

Definition is_active (s : PageLifecycleState) : bool :=
  match s with active => true | _ => false end.

End PageState.

Module PageStateManager.
Import PageState.

(** The numbers [handleScroll] reads from [window] and [document]. *)
Record ScrollMetrics := {
  innerHeight : Q;
  scrollY : Q;
  pageYOffset : Q;
  scrollTop : Q;
  scrollHeight : Q
}.

Inductive VisibilityState := visible | hiddenVisibility | otherVisibility.

(** [event.type] of the events [handlePageLifecycle] is registered for;
    [otherEvent] takes the switch's implicit default. *)
Inductive LifecycleEvent := freeze | resume | pageshow | pagehide | otherEvent.

(** [idleTimer] is the due time of the armed idle timeout, [None] when no
    timeout is pending.  [hasDOM] says whether [window] and [document]
    exist in the host. *)
Record Manager := mkManager {
  state : PageState.t;
  idleTimeout : Z;
  idleTimer : option Z;
  pageStartTime : Z;
  hasDOM : bool
}.

Definition with_state (m : Manager) (s : PageState.t) : Manager :=
  mkManager s (idleTimeout m) (idleTimer m) (pageStartTime m) (hasDOM m).

Definition with_timer (m : Manager) (tm : option Z) : Manager :=
  mkManager (state m) (idleTimeout m) tm (pageStartTime m) (hasDOM m).

(** [a || b] on numbers: [0] is falsy. *)
Definition js_or (a b : Q) : Q := if Qeq_bool a 0 then b else a.

(** [Math.round]: the nearest integer, halves going up. *)
Definition Math_round (x : Q) : Z := Qfloor (x + (1 # 2)).

Definition startIdleTimer (now : Z) (m : Manager) : Manager :=
  if hasDOM m then with_timer m (Some (now + idleTimeout m)) else m.

Definition resetIdleTimer (now : Z) (m : Manager) : Manager :=
  startIdleTimer now (with_timer m None).

(** The constructor, called at time [now]. *)
Definition new (now : Z) (idleTimeout : Z) (dom : bool) : Manager :=
  startIdleTimer now
    (mkManager (PageState.mk active now 0 0 0 false None) idleTimeout None now dom).

Definition getState (m : Manager) : PageState.t := state m.

Definition getDuration (now : Z) (m : Manager) : Z := now - pageStartTime m.

Definition getActiveDuration (now : Z) (m : Manager) : Z :=
  let s := state m in
  let duration := activeDuration s in
  if is_active (PageState.state s) && negb (isIdle s)
  then duration + (now - stateStartTime s)
  else duration.

(** The part shared by the two lifecycle handlers: credit the active period
    that ends, enter [newState], rearm the idle timer on entering active. *)
Definition transition (now : Z) (newState : PageLifecycleState) (m : Manager) : Manager :=
  let s := state m in
  let credited :=
    if is_active (PageState.state s) && negb (isIdle s)
    then activeDuration s + (now - stateStartTime s)
    else activeDuration s in
  let m' := with_state m
    (PageState.mk newState now credited (scrollDepth s) (maxScrollDepth s)
                  (isIdle s) (idleStartTime s)) in
  if is_active newState then resetIdleTimer now m' else m'.

Definition handleVisibilityChange (now : Z) (v : VisibilityState) (m : Manager) : Manager :=
  if negb (hasDOM m) then m
  else
    let newState :=
      match v with
      | visible => active
      | hiddenVisibility => hidden
      | otherVisibility => passive
      end in
    transition now newState m.

Definition handlePageLifecycle (now : Z) (ev : LifecycleEvent) (m : Manager) : Manager :=
  let newState :=
    match ev with
    | freeze => frozen
    | resume => active
    | pageshow => active
    | pagehide => terminated
    | otherEvent => PageState.state (state m)
    end in
  transition now newState m.

(** [window.scrollY || window.pageYOffset || document.documentElement.scrollTop]. *)
Definition scrollPosition (w : ScrollMetrics) : Q :=
  js_or (js_or (scrollY w) (pageYOffset w)) (scrollTop w).

Definition calculateScrollDepth (dom : bool) (w : ScrollMetrics) : Z :=
  if negb dom then 0
  else
    let windowHeight := innerHeight w in
    let pageHeight := scrollHeight w in
    if Qeq_bool pageHeight 0 then 0
    else
      let depth := (((scrollPosition w + windowHeight) / pageHeight) * 100)%Q in
      Z.min (Math_round depth) 100.

Definition handleScroll (w : ScrollMetrics) (m : Manager) : Manager :=
  let s := state m in
  let depth := calculateScrollDepth (hasDOM m) w in
  with_state m
    (PageState.mk (PageState.state s) (stateStartTime s) (activeDuration s)
                  depth
                  (if maxScrollDepth s <? depth then depth else maxScrollDepth s)
                  (isIdle s) (idleStartTime s)).

Definition handleUserActivity (now : Z) (m : Manager) : Manager :=
  let s := state m in
  let m' :=
    if isIdle s
    then with_state m
           (PageState.mk (PageState.state s) (stateStartTime s) (activeDuration s)
                         (scrollDepth s) (maxScrollDepth s) false None)
    else m in
  resetIdleTimer now m'.

(** The callback of the idle timeout, run at time [now]. *)
Definition idleCallback (now : Z) (m : Manager) : Manager :=
  let s := state m in
  let idleStart := now in
  with_state m
    (if is_active (PageState.state s)
     then PageState.mk (PageState.state s) idleStart
                       (activeDuration s + (idleStart - stateStartTime s))
                       (scrollDepth s) (maxScrollDepth s) true (Some idleStart)
     else PageState.mk (PageState.state s) (stateStartTime s) (activeDuration s)
                       (scrollDepth s) (maxScrollDepth s) true (Some idleStart)).

Definition destroy (m : Manager) : Manager := with_timer m None.

(** *** The host: signals and the passing of time *)

Inductive Signal :=
| VisibilityChange (v : VisibilityState)
| PageLifecycle (ev : LifecycleEvent)
| Scroll (w : ScrollMetrics)
| UserActivity.

Definition handle (now : Z) (sig : Signal) (m : Manager) : Manager :=
  match sig with
  | VisibilityChange v => handleVisibilityChange now v m
  | PageLifecycle ev => handlePageLifecycle now ev m
  | Scroll w => handleScroll w m
  | UserActivity => handleUserActivity now m
  end.

(** Time passes up to [now]: an idle timeout that has become due fires at
    its due time. *)
Definition elapse (now : Z) (m : Manager) : Manager :=
  match idleTimer m with
  | Some due => if due <=? now then idleCallback due (with_timer m None) else m
  | None => m
  end.

Definition deliver (ev : Z * Signal) (m : Manager) : Manager :=
  handle (fst ev) (snd ev) (elapse (fst ev) m).

Definition run (trace : list (Z * Signal)) (m : Manager) : Manager :=
  fold_left (fun m ev => deliver ev m) trace m.

(** *** Reference accounting of engagement

    What the documentation of [getActiveDuration] promises: time counts
    while the page is active and the user is not idle, and at no other
    time.  [engagedTime clock m trace tend] adds up exactly those
    intervals between [clock] and [tend]. *)

Definition engaged (m : Manager) : bool :=
  is_active (PageState.state (state m)) && negb (isIdle (state m)).

Definition credit (m : Manager) (from to : Z) : Z :=
  if engaged m then to - from else 0.

Definition creditUntil (clock now : Z) (m : Manager) : Z :=
  match idleTimer m with
  | Some due =>
      if due <=? now
      then credit m clock due + credit (elapse now m) due now
      else credit m clock now
  | None => credit m clock now
  end.

Fixpoint engagedTime (clock : Z) (m : Manager) (trace : list (Z * Signal)) (tend : Z) : Z :=
  match trace with
  | [] => creditUntil clock tend m
  | ev :: rest =>
      creditUntil clock (fst ev) m + engagedTime (fst ev) (deliver ev m) rest tend
  end.

(** *** Vocabulary of the statements *)

(** Metrics a browser reports: the scrolled-to bottom edge is not above the
    top of the document, and the document height is not negative. *)
Definition metrics_nonneg (w : ScrollMetrics) : Prop :=
  (0 <= scrollPosition w + innerHeight w)%Q /\ (0 <= scrollHeight w)%Q.

Definition signal_nonneg (ev : Z * Signal) : Prop :=
  match snd ev with
  | Scroll w => metrics_nonneg w
  | _ => True
  end.

Definition depth_in_range (m : Manager) : Prop :=
  0 <= scrollDepth (state m) <= 100.

(** [scrollY = -900] on a viewport of 800 and a document of 2000. *)
Definition overscrolled : ScrollMetrics :=
  {| innerHeight := 800; scrollY := -900; pageYOffset := 0; scrollTop := 0;
     scrollHeight := 2000 |}.

(** Viewport 800, offset 200, document 2000. *)
Definition halfway : ScrollMetrics :=
  {| innerHeight := 800; scrollY := 200; pageYOffset := 0; scrollTop := 0;
     scrollHeight := 2000 |}.

End PageStateManager.

(** ** Values of [Record<string, any>] property maps *)

Inductive Value :=
| VNull
| VBool (b : bool)
| VNumber (n : Z)
| VString (s : string).

(** ** EventQueue *)

Module EventQueue.

Record QueuedEvent := mkEvent {
  id : string;
  endpoint : string;
  data : gmap string Value;
  timestamp : Z;
  retries : Z
}.

Definition DEFAULT_MAX_RETRIES : Z := 3.
Definition RETRY_DELAYS : list Z := [1000; 2000; 4000].

(** The text stored under [STORAGE_KEY], told apart by what
    [loadFromLocalStorage] does with it: the empty string is falsy;
    [JSON.parse] throws on [Unparsable]; it returns a value that cannot be
    spread ([null], a number, a boolean, a plain object) on [NotIterable];
    [Snapshot evs] is [JSON.stringify] of an array of event records.  Texts
    that parse to other iterables are not [QueuedEvent[]] and stay outside
    the model. *)
Inductive StoredText :=
| EmptyText
| Unparsable
| NotIterable
| Snapshot (events : list QueuedEvent).

(** The host's [localStorage], reduced to the item under [STORAGE_KEY]:
    [Undefined] when [typeof localStorage === 'undefined']; [full] makes
    [setItem] throw a quota error. *)
Inductive LocalStorage :=
| Undefined
| Store (item : option StoredText) (full : bool).

Inductive Warning :=
| WarnSendFailed
| WarnExhausted (id : string) (maxRetries : Z)
| WarnFlushFailed
| WarnNoStorage
| WarnQuota
| WarnCorrupted.

(** One call of [apiClient.sendEvent] as the transport sees it: the event
    object, the [useBeacon] flag and the time of the call. *)
Record Attempt := mkAttempt {
  target : nat;
  useBeacon : bool;
  at_time : Z
}.

(** A [processNext] suspended at [await this.apiClient.sendEvent(...)]:
    [event] is the object it read from [this.queue[0]]; [fromLoop] tells
    whether the drain loop of [process] awaits it or a retry timer started
    it. *)
Record Pending := mkPending {
  event : nat;
  fromLoop : bool
}.

(** The queue object and the part of the host it acts on.  Event objects
    live in [heap]; [queue] holds their addresses, so that the object a
    suspended [processNext] holds is the one in the array.  [timers] are the
    due times of the pending [setTimeout]s of [retry]. *)
Record State := mkState {
  heap : list QueuedEvent;
  queue : list nat;
  processing : bool;
  maxRetries : Z;
  localStorage : LocalStorage;
  now : Z;
  timers : list Z;
  pending : list Pending;
  sent : list Attempt;
  delivered : list nat;
  warnings : list Warning
}.

Definition set_heap (h : list QueuedEvent) (s : State) : State :=
  mkState h (queue s) (processing s) (maxRetries s) (localStorage s) (now s)
          (timers s) (pending s) (sent s) (delivered s) (warnings s).
Definition set_queue (q : list nat) (s : State) : State :=
  mkState (heap s) q (processing s) (maxRetries s) (localStorage s) (now s)
          (timers s) (pending s) (sent s) (delivered s) (warnings s).
Definition set_processing (b : bool) (s : State) : State :=
  mkState (heap s) (queue s) b (maxRetries s) (localStorage s) (now s)
          (timers s) (pending s) (sent s) (delivered s) (warnings s).
Definition set_localStorage (ls : LocalStorage) (s : State) : State :=
  mkState (heap s) (queue s) (processing s) (maxRetries s) ls (now s)
          (timers s) (pending s) (sent s) (delivered s) (warnings s).
Definition set_now (t : Z) (s : State) : State :=
  mkState (heap s) (queue s) (processing s) (maxRetries s) (localStorage s) t
          (timers s) (pending s) (sent s) (delivered s) (warnings s).
Definition set_timers (ts : list Z) (s : State) : State :=
  mkState (heap s) (queue s) (processing s) (maxRetries s) (localStorage s) (now s)
          ts (pending s) (sent s) (delivered s) (warnings s).
Definition set_pending (ps : list Pending) (s : State) : State :=
  mkState (heap s) (queue s) (processing s) (maxRetries s) (localStorage s) (now s)
          (timers s) ps (sent s) (delivered s) (warnings s).
Definition set_sent (l : list Attempt) (s : State) : State :=
  mkState (heap s) (queue s) (processing s) (maxRetries s) (localStorage s) (now s)
          (timers s) (pending s) l (delivered s) (warnings s).
Definition set_delivered (l : list nat) (s : State) : State :=
  mkState (heap s) (queue s) (processing s) (maxRetries s) (localStorage s) (now s)
          (timers s) (pending s) (sent s) l (warnings s).
Definition warn (w : Warning) (s : State) : State :=
  mkState (heap s) (queue s) (processing s) (maxRetries s) (localStorage s) (now s)
          (timers s) (pending s) (sent s) (delivered s) (warnings s ++ [w]).

(** [this.queue.push(r)] and [this.queue.shift()]. *)
Definition push (r : nat) (s : State) : State := set_queue (queue s ++ [r]) s.
Definition shift (s : State) : State := set_queue (tail (queue s)) s.

(** [`${Date.now()}-${Math.random().toString(36).substr(2, 9)}`]; the random
    part comes from the host. *)
Definition generateEventId (now : Z) (rnd : string) : string :=
  pretty now +:+ "-" +:+ rnd.

(** [arr[i]] for a number [i]: [undefined] out of range. *)
Definition array_get (arr : list Z) (i : Z) : option Z :=
  if i <? 0 then None else arr !! Z.to_nat i.

(** [RETRY_DELAYS[retries - 1] || RETRY_DELAYS[RETRY_DELAYS.length - 1]]. *)
Definition retry_delay (retries : Z) : Z :=
  let lastDelay := default 0 (array_get RETRY_DELAYS (Z.of_nat (length RETRY_DELAYS) - 1)) in
  match array_get RETRY_DELAYS (retries - 1) with
  | Some d => if d =? 0 then lastDelay else d
  | None => lastDelay
  end.

Definition saveToLocalStorage (s : State) : State :=
  match localStorage s with
  | Undefined => warn WarnNoStorage s
  | Store item full =>
      let serialized := Snapshot (omap (fun r => heap s !! r) (queue s)) in
      if full then warn WarnQuota s
      else set_localStorage (Store (Some serialized) full) s
  end.

(** [apiClient.sendEvent(event.endpoint, event.data, false)] is called and
    awaited: the transport sees the attempt now, the caller is suspended. *)
Definition await_sendEvent (r : nat) (loop : bool) (s : State) : State :=
  set_pending (pending s ++ [mkPending r loop])
    (set_sent (sent s ++ [mkAttempt r false (now s)]) s).

(** [processNext] up to its [await]. *)
Definition processNext (loop : bool) (s : State) : State :=
  match queue s with
  | [] => s
  | r :: _ => await_sendEvent r loop s
  end.

(** [setTimeout(callback, delay)] of [retry]. *)
Definition setTimeout (delay : Z) (s : State) : State :=
  set_timers (timers s ++ [now s + delay]) s.

Definition retry (r : nat) (s : State) : State :=
  match heap s !! r with
  | None => s
  | Some e =>
      let e' := mkEvent (id e) (endpoint e) (data e) (timestamp e) (retries e + 1) in
      let s1 := set_heap (<[r := e']> (heap s)) s in
      if maxRetries s1 <=? retries e' then
        saveToLocalStorage (shift (warn (WarnExhausted (id e') (maxRetries s1)) s1))
      else
        setTimeout (retry_delay (retries e')) s1
  end.

(** The [while] loop of [process], from its condition: either the next
    [processNext] is awaited, or the loop ends and [finally] runs. *)
Definition process_loop (s : State) : State :=
  match queue s with
  | [] => set_processing false s
  | _ :: _ => processNext true s
  end.

Definition process (s : State) : State :=
  if processing s then s
  else process_loop (set_processing true s).

(** [processNext] after its [await]: the promise of [sendEvent] resolved
    ([ok]) or rejected; then the awaiting drain loop, if any, goes on. *)
Definition processNext_resume (p : Pending) (ok : bool) (s : State) : State :=
  let s1 :=
    if ok then shift (set_delivered (delivered s ++ [event p]) s)
    else retry (event p) (warn WarnSendFailed s) in
  if fromLoop p then process_loop s1 else s1.

(** The callback [retry] hands to [setTimeout]. *)
Definition timerCallback (s : State) : State :=
  if processing s then processNext false s else s.

Definition enqueue (endpoint : string) (data : gmap string Value) (rnd : string)
    (s : State) : State :=
  let ev := mkEvent (generateEventId (now s) rnd) endpoint data (now s) 0 in
  let s1 := push (length (heap s)) (set_heap (heap s ++ [ev]) s) in
  if processing s1 then s1 else process s1.

(** The body of the [for] loop of [flush] on the [i]-th flushed event [r]:
    [sendEvent(..., true)] is called; when it throws synchronously
    ([throws i]) the event is pushed back. *)
Definition flush_event (throws : nat -> bool) (s : State) (ir : nat * nat) : State :=
  let s1 := set_sent (sent s ++ [mkAttempt (snd ir) true (now s)]) s in
  if throws (fst ir) then push (snd ir) (warn WarnFlushFailed s1) else s1.

Definition flush (throws : nat -> bool) (s : State) : State :=
  let eventsToFlush := queue s in
  let s1 := set_queue [] s in
  let s2 := fold_left (flush_event throws) (imap pair eventsToFlush) s1 in
  match queue s2 with
  | [] => s2
  | _ :: _ => saveToLocalStorage s2
  end.

Definition removeItem (s : State) : State :=
  match localStorage s with
  | Undefined => s
  | Store _ full => set_localStorage (Store None full) s
  end.

Definition loadFromLocalStorage (s : State) : State :=
  match localStorage s with
  | Undefined => warn WarnNoStorage s
  | Store None _ => s
  | Store (Some EmptyText) _ => s
  | Store (Some Unparsable) _ => removeItem (warn WarnCorrupted s)
  | Store (Some NotIterable) _ => removeItem (warn WarnCorrupted s)
  | Store (Some (Snapshot events)) _ =>
      let s1 :=
        set_queue (queue s ++ seq (length (heap s)) (length events))
          (set_heap (heap s ++ events) s) in
      let s2 := removeItem s1 in
      if (0 <? Z.of_nat (length events)) && negb (processing s2)
      then process s2 else s2
  end.

(** [new EventQueue(apiClient, maxRetries)] at time [t0] in a host whose
    storage is [ls]. *)
Definition new (ls : LocalStorage) (maxRetries : Z) (t0 : Z) : State :=
  loadFromLocalStorage (mkState [] [] false maxRetries ls t0 [] [] [] [] []).

(** *** The event loop

    What can happen to a queue: calls of its public methods, the transport
    settling the [k]-th suspended attempt, the earliest retry timer firing
    once it is due, and time passing.  Each is one task of the host.  When
    an attempt settles, the rest of [processNext] and the resumption of the
    awaiting loop are consecutive microtasks of that task and run back to
    back, so [Settle] takes them in one step. *)

Inductive Action :=
| Enqueue (endpoint : string) (data : gmap string Value) (rnd : string)
| Process
| Flush (throws : nat -> bool)
| Settle (k : nat) (ok : bool)
| Fire
| Tick (dt : Z).

(** Position and due time of the timer that fires next: the least due time,
    the one set first among equals. *)
Fixpoint earliest (ts : list Z) : option (nat * Z) :=
  match ts with
  | [] => None
  | d :: ts' =>
      match earliest ts' with
      | Some (i, d') => if d' <? d then Some (S i, d') else Some (0%nat, d)
      | None => Some (0%nat, d)
      end
  end.

Definition step (s : State) (a : Action) : State :=
  match a with
  | Enqueue ep d rnd => enqueue ep d rnd s
  | Process => process s
  | Flush throws => flush throws s
  | Settle k ok =>
      match pending s !! k with
      | Some p => processNext_resume p ok (set_pending (delete k (pending s)) s)
      | None => s
      end
  | Fire =>
      match earliest (timers s) with
      | Some (i, due) =>
          if due <=? now s
          then timerCallback (set_timers (delete i (timers s)) s)
          else s
      | None => s
      end
  | Tick dt => set_now (now s + Z.max 0 dt) s
  end.

Definition run (s : State) (schedule : list Action) : State :=
  fold_left step schedule s.

(** The events the transport has been handed, in the order of the calls. *)
Definition observed (s : State) : list (string * gmap string Value) :=
  omap (fun a => (fun e => (endpoint e, data e)) <$> heap s !! target a) (sent s).

(** What a schedule enqueues, in call order. *)
Definition enqueued (schedule : list Action) : list (string * gmap string Value) :=
  omap (fun a => match a with Enqueue ep d _ => Some (ep, d) | _ => None end) schedule.

(** *** Vocabulary of the statements *)

(** The queue as [JSON.stringify(this.queue)] would list it. *)
Definition contents (s : State) : list QueuedEvent :=
  omap (fun r => heap s !! r) (queue s).

(** The events a construction would load from the host's storage. *)
Definition stored_events (ls : LocalStorage) : list QueuedEvent :=
  match ls with
  | Store (Some (Snapshot events)) _ => events
  | _ => []
  end.

(** A step of a run in which only [enqueue] (and [process]) is called and
    the transport accepts every attempt. *)
Definition accepting (a : Action) : Prop :=
  match a with
  | Settle _ ok => ok = true
  | Flush _ => False
  | _ => True
  end.

(** The shape of a queue that has only seen accepted attempts, [n] of them
    settled: the queue holds the objects from [n] on in allocation order, no
    timer is set, and while the drain loop runs it awaits the one attempt on
    object [n], the transport having seen objects [0..n] in order. *)
Definition drained (n : nat) (s : State) : Prop :=
  timers s = [] /\
  queue s = seq n (length (heap s) - n) /\
  if processing s
  then (n < length (heap s))%nat /\ pending s = [mkPending n true] /\
       map target (sent s) = seq 0 (S n)
  else n = length (heap s) /\ pending s = [] /\ map target (sent s) = seq 0 n.

Definition content (e : QueuedEvent) : string * gmap string Value :=
  (endpoint e, data e).

(** Every queued event has retries left. *)
Definition retry_bounded (s : State) : Prop :=
  forall r, r ∈ queue s ->
    exists e, heap s !! r = Some e /\ retries e < maxRetries s.

(** The object a suspended [processNext] holds is allocated and, while it is
    queued, it is the head of the queue. *)
Definition pending_at_head (s : State) (p : Pending) : Prop :=
  (event p < length (heap s))%nat /\
  (event p ∈ queue s -> head (queue s) = Some (event p)).

Definition queue_inv (s : State) : Prop :=
  0 < maxRetries s /\ NoDup (queue s) /\ retry_bounded s /\
  Forall (pending_at_head s) (pending s).

(** The inputs of the scenarios. *)
Definition save_test : gmap string Value := {[ "event" := VString "save_test" ]}.

Definition three_events : list Action :=
  [Enqueue "/track/" {[ "event" := VString "first" ]} "a1";
   Enqueue "/track/" {[ "event" := VString "second" ]} "b2";
   Settle 0 true;
   Enqueue "/track/" {[ "event" := VString "third" ]} "c3";
   Settle 0 true; Settle 0 true].

Definition rejecting_run : list Action :=
  [Enqueue "/track/" save_test "k3x9q"; Enqueue "/identify" ∅ "p0w2z";
   Settle 0 false; Tick 1000; Fire; Settle 1 false; Flush (fun i => Nat.eqb i 0);
   Settle 0 false; Enqueue "/update" ∅ "m5c1d"; Settle 0 true].

End EventQueue.

(** ** Tracker *)

Module Tracker.

(** What the event builder reads from [window.location] and [document]. *)
Record PageInfo := {
  href : string;
  title : string;
  hostname : string;
  pathname : string;
  search : string
}.

(** What the host supplies to one handler run: the random parts of the
    queue's and of the tracker's fresh event ids, the id [CookieManager] would generate for a new visitor, the
    page, and whether [sendEvent] throws on the [i]-th flushed event. *)
Record Host := {
  rnd : string;
  idRnd : string;
  freshVisitorId : string;
  page : PageInfo;
  beaconThrows : nat -> bool
}.

(** [cookie] is the visitor cookie as [CookieManager.getCookie] reads it;
    [cookiesEnabled] tells whether [setCookie] takes effect.  The clock is
    the one of the event queue. *)
Record Tracker := mkTracker {
  project : string;
  cookie : option string;
  cookiesEnabled : bool;
  eventQueue : EventQueue.State;
  pageStateManager : PageStateManager.Manager;
  visitorData : gmap string Value;
  sessionData : gmap string Value;
  projectData : gmap string Value;
  sessionStartTime : Z;
  lastEventId : option string
}.

Definition Date_now (t : Tracker) : Z := EventQueue.now (eventQueue t).

Definition set_cookie (c : option string) (t : Tracker) : Tracker :=
  mkTracker (project t) c (cookiesEnabled t) (eventQueue t) (pageStateManager t)
            (visitorData t) (sessionData t) (projectData t) (sessionStartTime t)
            (lastEventId t).
Definition set_eventQueue (q : EventQueue.State) (t : Tracker) : Tracker :=
  mkTracker (project t) (cookie t) (cookiesEnabled t) q (pageStateManager t)
            (visitorData t) (sessionData t) (projectData t) (sessionStartTime t)
            (lastEventId t).
Definition set_visitorData (d : gmap string Value) (t : Tracker) : Tracker :=
  mkTracker (project t) (cookie t) (cookiesEnabled t) (eventQueue t) (pageStateManager t)
            d (sessionData t) (projectData t) (sessionStartTime t) (lastEventId t).
Definition set_sessionData (d : gmap string Value) (t : Tracker) : Tracker :=
  mkTracker (project t) (cookie t) (cookiesEnabled t) (eventQueue t) (pageStateManager t)
            (visitorData t) d (projectData t) (sessionStartTime t) (lastEventId t).
Definition set_projectData (d : gmap string Value) (t : Tracker) : Tracker :=
  mkTracker (project t) (cookie t) (cookiesEnabled t) (eventQueue t) (pageStateManager t)
            (visitorData t) (sessionData t) d (sessionStartTime t) (lastEventId t).
Definition set_lastEventId (i : option string) (t : Tracker) : Tracker :=
  mkTracker (project t) (cookie t) (cookiesEnabled t) (eventQueue t) (pageStateManager t)
            (visitorData t) (sessionData t) (projectData t) (sessionStartTime t) i.

(** A string is truthy when it is not empty. *)
Definition truthy (o : option string) : option string :=
  match o with
  | Some s => if String.eqb s "" then None else Some s
  | None => None
  end.

(** [CookieManager.getVisitorId]: the cookie when it has one, else a new id
    that is also written to the cookie when cookies work. *)
Definition getVisitorId (h : Host) (t : Tracker) : string * Tracker :=
  match truthy (cookie t) with
  | Some existingId => (existingId, t)
  | None =>
      let newId := freshVisitorId h in
      (newId, if cookiesEnabled t then set_cookie (Some newId) t else t)
  end.

(** [{ ...a, ...b }]: the entries of [b] win. *)
Definition spread (a b : gmap string Value) : gmap string Value := b ∪ a.

(** [for (const [key, value] of Object.entries(props)) ev[prefix + key] = value]. *)
Definition add_prefixed (prefix : string) (props ev : gmap string Value)
    : gmap string Value :=
  map_fold (fun key value acc => <[prefix +:+ key := value]> acc) ev props.

Definition buildTrackingEvent (h : Host) (event : string)
    (properties : option (gmap string Value)) (t : Tracker)
    : gmap string Value * Tracker :=
  let now := Date_now t in
  let pageState := PageStateManager.getState (pageStateManager t) in
  let '(visitor, t1) := getVisitorId h t in
  let standard : gmap string Value :=
    <["scroll_depth" := VNumber (PageState.maxScrollDepth pageState)]>
    (<["duration" := VNumber (PageStateManager.getActiveDuration now (pageStateManager t))]>
    (<["uri" := VString (pathname (page h) +:+ search (page h))]>
    (<["domain" := VString (hostname (page h))]>
    (<["title" := VString (title (page h))]>
    (<["url" := VString (href (page h))]>
    (<["timestamp" := VNumber now]>
    (<["cookie" := VString visitor]>
    (<["event" := VString event]>
    (<["project" := VString (project t)]> ∅))))))))) in
  let withVisitor := add_prefixed "u_" (visitorData t1) standard in
  let withSession := add_prefixed "s_" (sessionData t1) withVisitor in
  let withProject := add_prefixed "p_" (projectData t1) withSession in
  let trackingEvent :=
    match properties with
    | Some props => add_prefixed "e_" props withProject
    | None => withProject
    end in
  (trackingEvent, t1).

(** [this.eventQueue.enqueue(endpoint, ev)]. *)
Definition eventQueue_enqueue (h : Host) (endpoint : string) (ev : gmap string Value)
    (t : Tracker) : Tracker :=
  set_eventQueue (EventQueue.enqueue endpoint ev (rnd h) (eventQueue t)) t.

(** [`${Date.now()}-${Math.random().toString(36).substring(2, 11)}`]. *)
Definition generateEventId (h : Host) (t : Tracker) : string :=
  pretty (Date_now t) +:+ "-" +:+ idRnd h.

Definition track (h : Host) (event : string) (properties : option (gmap string Value))
    (t : Tracker) : Tracker :=
  let '(trackingEvent, t1) := buildTrackingEvent h event properties t in
  let eventId :=
    match trackingEvent !! "id" with
    | Some (VString i) => if String.eqb i "" then generateEventId h t else i
    | _ => generateEventId h t
    end in
  let t2 := set_lastEventId (Some eventId) t1 in
  eventQueue_enqueue h "/track/" (<["id" := VString eventId]> trackingEvent) t2.

Definition setSessionProperties (properties : gmap string Value) (t : Tracker) : Tracker :=
  set_sessionData (spread (sessionData t) properties) t.

Definition setProjectProperties (properties : gmap string Value) (t : Tracker) : Tracker :=
  set_projectData (spread (projectData t) properties) t.

Definition clearSessionProperties (t : Tracker) : Tracker :=
  set_sessionData ∅ t.

Definition detectSessionEnd (t : Tracker) : Tracker :=
  clearSessionProperties t.

Definition sendFinalEvent (h : Host) (t : Tracker) : Tracker :=
  let pageState := PageStateManager.getState (pageStateManager t) in
  let props : gmap string Value :=
    <["session_duration" := VNumber (Date_now t - sessionStartTime t)]>
    (<["final_scroll_depth" := VNumber (PageState.maxScrollDepth pageState)]>
    (<["final_duration" :=
         VNumber (PageStateManager.getActiveDuration (Date_now t) (pageStateManager t))]> ∅)) in
  let '(finalEvent, t1) := buildTrackingEvent h "page_unload" (Some props) t in
  match truthy (lastEventId t1) with
  | Some i => eventQueue_enqueue h "/update" (<["id" := VString i]> finalEvent) t1
  | None => eventQueue_enqueue h "/track/" finalEvent t1
  end.

(** How a block of statements ends: normally, or by an exception thrown in
    the state reached so far.  The three calls of the unload handler end
    normally: [EventQueue.enqueue] and [EventQueue.flush] catch what the
    transport and the storage throw. *)
Inductive Completion :=
| Normal (t : Tracker)
| Thrown (t : Tracker).

Definition andThen (c : Completion) (f : Tracker -> Completion) : Completion :=
  match c with
  | Normal t => f t
  | Thrown t => Thrown t
  end.

(** [try { body } catch (error) { console.warn(...) }]. *)
Definition try_catch (body : Completion) : Completion :=
  match body with
  | Normal t => Normal t
  | Thrown t => Normal t
  end.

(** The handler [handlePageUnload] registers for [beforeunload] and
    [pagehide]. *)
Definition unloadHandler (h : Host) (t : Tracker) : Completion :=
  try_catch
    (andThen (Normal (sendFinalEvent h t)) (fun t1 =>
     andThen (Normal (set_eventQueue (EventQueue.flush (beaconThrows h) (eventQueue t1)) t1))
       (fun t2 =>
     Normal (detectSessionEnd t2)))).

End Tracker.

(** * Properties of the page state manager *)

Section PageStateFacts.
Import PageState PageStateManager.

Lemma Math_round_nonneg (x : Q) : (0 <= x)%Q -> 0 <= Math_round x.
Proof.
  intros Hx. unfold Math_round.
  change 0 with (Qfloor 0). apply Qfloor_resp_le.
  apply Qle_trans with x; [exact Hx|].
  rewrite <- (Qplus_0_r x) at 1. apply Qplus_le_r. discriminate.
Qed.

Lemma calculateScrollDepth_le_100 (dom : bool) (w : ScrollMetrics) :
  calculateScrollDepth dom w <= 100.
Proof.
  unfold calculateScrollDepth.
  destruct (negb dom); [lia|].
  destruct (Qeq_bool (scrollHeight w) 0); [lia|]. apply Z.le_min_r.
Qed.

Lemma calculateScrollDepth_nonneg (dom : bool) (w : ScrollMetrics) :
  metrics_nonneg w -> 0 <= calculateScrollDepth dom w.
Proof.
  intros [Hpos Hh]. unfold calculateScrollDepth.
  destruct (negb dom); [lia|].
  destruct (Qeq_bool (scrollHeight w) 0) eqn:E; [lia|].
  apply Z.min_glb; [|lia].
  apply Math_round_nonneg.
  apply Qmult_le_0_compat; [|discriminate].
  unfold Qdiv. apply Qmult_le_0_compat; [exact Hpos|].
  apply Qinv_le_0_compat. exact Hh.
Qed.

Lemma calculateScrollDepth_zero_height (dom : bool) (w : ScrollMetrics) :
  Qeq_bool (scrollHeight w) 0 = true -> calculateScrollDepth dom w = 0.
Proof.
  intros E. unfold calculateScrollDepth. rewrite E. now destruct (negb dom).
Qed.

(** Which handlers write the two scroll fields. *)
Lemma scroll_fields_transition now st m :
  scrollDepth (state (transition now st m)) = scrollDepth (state m) /\
  maxScrollDepth (state (transition now st m)) = maxScrollDepth (state m).
Proof.
  unfold transition, resetIdleTimer, startIdleTimer.
  destruct (is_active st); simpl; [destruct (hasDOM m)|]; simpl; auto.
Qed.

Lemma scroll_fields_handleUserActivity now m :
  scrollDepth (state (handleUserActivity now m)) = scrollDepth (state m) /\
  maxScrollDepth (state (handleUserActivity now m)) = maxScrollDepth (state m).
Proof.
  unfold handleUserActivity, resetIdleTimer, startIdleTimer.
  destruct (isIdle (state m)); simpl; destruct (hasDOM m); simpl; auto.
Qed.

Lemma scroll_fields_elapse now m :
  scrollDepth (state (elapse now m)) = scrollDepth (state m) /\
  maxScrollDepth (state (elapse now m)) = maxScrollDepth (state m).
Proof.
  unfold elapse, idleCallback.
  destruct (idleTimer m) as [due|]; [|auto].
  destruct (due <=? now); [|auto]. simpl.
  destruct (is_active (PageState.state (state m))); simpl; auto.
Qed.

Lemma maxScrollDepth_handleScroll w m :
  maxScrollDepth (state (handleScroll w m))
  = Z.max (maxScrollDepth (state m)) (calculateScrollDepth (hasDOM m) w).
Proof.
  unfold handleScroll. simpl.
  destruct (Z.ltb_spec (maxScrollDepth (state m)) (calculateScrollDepth (hasDOM m) w)); lia.
Qed.

Lemma maxScrollDepth_deliver ev m :
  maxScrollDepth (state m) <= maxScrollDepth (state (deliver ev m)).
Proof.
  unfold deliver. destruct ev as [now sig]. cbn [fst snd].
  destruct (scroll_fields_elapse now m) as [_ He]. rewrite <- He.
  generalize (elapse now m). intros m'.
  destruct sig as [v|ev|w|]; cbn [handle].
  - unfold handleVisibilityChange. destruct (negb (hasDOM m')); [lia|].
    destruct (scroll_fields_transition now
      match v with visible => active | hiddenVisibility => hidden | otherVisibility => passive end m')
      as [_ ->]. lia.
  - unfold handlePageLifecycle.
    match goal with |- _ <= maxScrollDepth (state (transition ?n ?s ?x)) =>
      destruct (scroll_fields_transition n s x) as [_ ->] end. lia.
  - rewrite maxScrollDepth_handleScroll. lia.
  - destruct (scroll_fields_handleUserActivity now m') as [_ ->]. lia.
Qed.

Lemma maxScrollDepth_run trace : forall m,
  maxScrollDepth (state m) <= maxScrollDepth (state (run trace m)).
Proof.
  induction trace as [|ev trace IH]; intros m; simpl; [lia|].
  etransitivity; [apply (maxScrollDepth_deliver ev)|apply IH].
Qed.

(** C8. The maximum scroll depth never decreases: a scroll signal sets it to
    the maximum of its previous value and the depth just computed, and no
    signal, timer or disposal, over any sequence of signals, lowers it. *)
Theorem max_scroll_depth_monotone :
  (forall (w : ScrollMetrics) (m : Manager),
      maxScrollDepth (state (handleScroll w m))
      = Z.max (maxScrollDepth (state m)) (calculateScrollDepth (hasDOM m) w)) /\
  (forall (trace : list (Z * Signal)) (m : Manager),
      maxScrollDepth (state m) <= maxScrollDepth (state (run trace m))) /\
  (forall m : Manager,
      maxScrollDepth (state (destroy m)) = maxScrollDepth (state m)).
Proof.
  split; [exact maxScrollDepth_handleScroll|].
  split; [exact maxScrollDepth_run|]. reflexivity.
Qed.

Lemma depth_in_range_deliver ev m :
  signal_nonneg ev -> depth_in_range m -> depth_in_range (deliver ev m).
Proof.
  unfold depth_in_range, deliver, signal_nonneg. destruct ev as [now sig]. cbn [fst snd].
  intros Hsig Hm.
  destruct (scroll_fields_elapse now m) as [He _]. rewrite <- He in Hm.
  revert Hm. generalize (elapse now m). intros m' Hm.
  destruct sig as [v|ev|w|]; cbn [handle].
  - unfold handleVisibilityChange. destruct (negb (hasDOM m')); [lia|].
    match goal with |- _ <= scrollDepth (state (transition ?n ?s ?x)) <= _ =>
      destruct (scroll_fields_transition n s x) as [-> _] end. lia.
  - unfold handlePageLifecycle.
    match goal with |- _ <= scrollDepth (state (transition ?n ?s ?x)) <= _ =>
      destruct (scroll_fields_transition n s x) as [-> _] end. lia.
  - unfold handleScroll. simpl. split.
    + now apply calculateScrollDepth_nonneg.
    + apply calculateScrollDepth_le_100.
  - destruct (scroll_fields_handleUserActivity now m') as [-> _]. lia.
Qed.

Lemma depth_in_range_run trace : forall m,
  Forall signal_nonneg trace -> depth_in_range m -> depth_in_range (run trace m).
Proof.
  induction trace as [|ev trace IH]; intros m Hall Hm; simpl; [exact Hm|].
  inversion Hall; subst. apply IH; [assumption|]. now apply depth_in_range_deliver.
Qed.

(** C6, as the code has it.  The depth is [min(round(...), 100)] with no
    lower clamp: it is at most 100 for all metrics, [0] for a document of
    height [0], and at least [0] when the metrics are not negative; then the
    scroll-depth field stays within [0, 100] over every sequence of
    signals. *)
Theorem scroll_depth_within_bounds
    (t0 timeout : Z) (dom : bool) (trace : list (Z * Signal)) (w : ScrollMetrics) :
  metrics_nonneg w ->
  Forall signal_nonneg trace ->
  0 <= calculateScrollDepth dom w <= 100 /\
  (Qeq_bool (scrollHeight w) 0 = true -> calculateScrollDepth dom w = 0) /\
  (forall w' : ScrollMetrics, calculateScrollDepth dom w' <= 100) /\
  0 <= scrollDepth (state (run trace (new t0 timeout dom))) <= 100.
Proof.
  intros Hw Htrace. repeat split.
  - now apply calculateScrollDepth_nonneg.
  - apply calculateScrollDepth_le_100.
  - apply calculateScrollDepth_zero_height.
  - intros w'. apply calculateScrollDepth_le_100.
  - apply (depth_in_range_run trace); [assumption|].
    unfold depth_in_range, new, startIdleTimer. simpl. destruct dom; simpl; lia.
  - apply (depth_in_range_run trace); [assumption|].
    unfold depth_in_range, new, startIdleTimer. simpl. destruct dom; simpl; lia.
Qed.

(** The scenario of the specification: viewport 800, offset 200, document
    2000. *)
Lemma scroll_depth_within_bounds_witness :
  0 <= calculateScrollDepth true halfway <= 100 /\
  (Qeq_bool (scrollHeight halfway) 0 = true -> calculateScrollDepth true halfway = 0) /\
  (forall w' : ScrollMetrics, calculateScrollDepth true w' <= 100) /\
  0 <= scrollDepth (state (run [(10, Scroll halfway)] (new 0 30000 true))) <= 100.
Proof.
  apply (scroll_depth_within_bounds 0 30000 true [(10, Scroll halfway)] halfway).
  - split; vm_compute; discriminate.
  - repeat constructor; vm_compute; discriminate.
Defined.

(** C6 as stated fails: an offset below the top of the document by more than
    the viewport gives a negative depth. *)
Lemma scroll_depth_negative :
  calculateScrollDepth true overscrolled = -5 /\
  ~ (0 <= scrollDepth (state (handleScroll overscrolled (new 0 30000 true))) <= 100).
Proof.
  split; [reflexivity|]. vm_compute. intros [H _]. apply H. reflexivity.
Qed.

(** The scroll scenario of the specification: 50, then 75, then back to 50
    with the maximum staying at 75. *)
Example scroll_scenario :
  let at_ y := {| innerHeight := 800; scrollY := y; pageYOffset := 0; scrollTop := 0;
                  scrollHeight := 2000 |} in
  let m1 := handleScroll (at_ 200%Q) (new 0 30000 true) in
  let m2 := handleScroll (at_ 700%Q) m1 in
  let m3 := handleScroll (at_ 200%Q) m2 in
  (scrollDepth (state m1), scrollDepth (state m2), maxScrollDepth (state m2),
   scrollDepth (state m3), maxScrollDepth (state m3)) = (50, 75, 75, 50, 75).
Proof. reflexivity. Qed.

(** *** Active duration *)

(** With no activity the idle timer fires at [t0 + timeout], and from then
    on the active duration stands at [timeout]. *)
Lemma active_duration_while_idle (t0 timeout t : Z) :
  t0 + timeout <= t ->
  getActiveDuration t (elapse t (new t0 timeout true)) = timeout.
Proof.
  intros H. unfold new, startIdleTimer, elapse. simpl.
  destruct (Z.leb_spec (t0 + timeout) t); [|lia].
  unfold getActiveDuration. simpl. lia.
Qed.

(** Once activity resumes at [ta], the idle interval from [t0 + timeout] to
    [ta] is back in the result: [getActiveDuration] is the wall-clock time
    since construction. *)
Lemma active_duration_after_resume (t0 timeout ta t : Z) :
  t0 + timeout <= ta ->
  getActiveDuration t (run [(ta, UserActivity)] (new t0 timeout true)) = t - t0.
Proof.
  intros H. unfold run, deliver, new, startIdleTimer, elapse. simpl.
  destruct (Z.leb_spec (t0 + timeout) ta); [|lia].
  unfold getActiveDuration. simpl. lia.
Qed.

(** The idle scenario of the specification: after 31000 ms without
    activity the idle flag is set with its start time; a pointer press
    clears both. *)
Example idle_scenario :
  let m := elapse 31000 (new 0 30000 true) in
  let m' := deliver (31000, UserActivity) m in
  (isIdle (state m), idleStartTime (state m), isIdle (state m'), idleStartTime (state m'))
  = (true, Some 30000, false, None).
Proof. reflexivity. Qed.

(** C3 at one input.  Constructed at 0 with a timeout of 30000 ms; no signal
    until a key press at 90000.  One millisecond later [getActiveDuration]
    answers 90001, where the time spent active and not idle is 30001: the
    60000 ms of idleness are counted. *)
Theorem idle_interval_counted_after_resume :
  isIdle (state (elapse 90000 (new 0 30000 true))) = true /\
  idleStartTime (state (elapse 90000 (new 0 30000 true))) = Some 30000 /\
  getActiveDuration 90001 (run [(90000, UserActivity)] (new 0 30000 true)) = 90001 /\
  engagedTime 0 (new 0 30000 true) [(90000, UserActivity)] 90001 = 30001.
Proof. repeat split. Qed.

End PageStateFacts.

(** * Properties of the event queue *)

Section EventQueueScenarios.
Import EventQueue.

Lemma omap_lookup_seq {A} (pre l : list A) :
  omap (fun r => (pre ++ l) !! r) (seq (length pre) (length l)) = l.
Proof.
  revert pre. induction l as [|x l IH]; intros pre; [reflexivity|].
  cbn [length seq omap list_omap].
  rewrite list_lookup_middle by reflexivity. f_equal.
  specialize (IH (pre ++ [x])).
  rewrite <- app_assoc, length_app, Nat.add_1_r in IH. exact IH.
Qed.

Lemma process_loaded (s : State) :
  heap (process s) = heap s /\ queue (process s) = queue s /\
  localStorage (process s) = localStorage s /\ warnings (process s) = warnings s.
Proof.
  unfold process, process_loop, processNext.
  destruct (processing s); [repeat split|]. cbn.
  destruct (queue s) eqn:E; cbn; rewrite ?E; repeat split.
Qed.

(** C7, as the code has it.  On construction: with no item under the key
    the queue is empty and nothing is written; a stored snapshot is loaded
    into the queue, each event once and in order, and the key is removed at
    once, so that a second construction loads nothing; a text that does not
    parse, or parses to a value that cannot be spread, is dropped with a
    warning and the key is removed; an empty text is left in place, without
    a warning, and the queue is empty.  [new] always returns a queue. *)
Theorem construction_loads_and_clears (full : bool) (maxRetries t0 : Z) :
  (let s := new (Store None full) maxRetries t0 in
   contents s = [] /\ localStorage s = Store None full /\ warnings s = []) /\
  (forall events : list QueuedEvent,
     let s := new (Store (Some (Snapshot events)) full) maxRetries t0 in
     contents s = events /\ localStorage s = Store None full /\
     contents (new (localStorage s) maxRetries t0) = []) /\
  (let s := new (Store (Some Unparsable) full) maxRetries t0 in
   contents s = [] /\ localStorage s = Store None full /\
   warnings s = [WarnCorrupted]) /\
  (let s := new (Store (Some NotIterable) full) maxRetries t0 in
   contents s = [] /\ localStorage s = Store None full /\
   warnings s = [WarnCorrupted]) /\
  (let s := new (Store (Some EmptyText) full) maxRetries t0 in
   contents s = [] /\ localStorage s = Store (Some EmptyText) full /\
   warnings s = []).
Proof.
  split; [repeat split|]. split; [|repeat split].
  intros events s.
  assert (Hs : contents s = events /\ localStorage s = Store None full).
  { subst s. unfold new, loadFromLocalStorage. cbn [localStorage].
    set (s2 := removeItem _).
    assert (E : contents s2 = events /\ localStorage s2 = Store None full).
    { subst s2. unfold contents, removeItem. cbn. split; [|reflexivity].
      apply (omap_lookup_seq [] events). }
    destruct ((0 <? Z.of_nat (length events)) && negb (processing s2)); [|exact E].
    destruct (process_loaded s2) as (Hh & Hq & Hl & _).
    unfold contents in *. rewrite Hh, Hq, Hl. exact E. }
  destruct Hs as [Hc Hl]. repeat split; [exact Hc|exact Hl|].
  rewrite Hl. reflexivity.
Qed.

(** C7 as stated fails on an item holding the empty string: it is neither
    a snapshot nor absent, yet the key is not cleared and nothing is
    logged. *)
Lemma empty_text_left_in_storage :
  let s := new (Store (Some EmptyText) false) 3 0 in
  localStorage s = Store (Some EmptyText) false /\
  localStorage s <> Store None false /\
  warnings s = [].
Proof. repeat split. discriminate. Qed.

(** C1 at one input.  One event, a transport that rejects every attempt,
    [maxRetries = 3], and the timers run out.  The event is gone from the
    queue and the "failed after 3 retries" warning is logged, but the
    snapshot written to storage is the queue after the [shift]: it holds no
    event. *)
Theorem exhausted_event_not_persisted :
  let s := run (new (Store None false) DEFAULT_MAX_RETRIES 0)
               [Enqueue "/track/" save_test "k3x9q"; Settle 0 false; Settle 0 false;
                Settle 0 false; Tick 1000; Fire; Tick 2000; Fire; Tick 4000] in
  queue s = [] /\
  map retries (heap s) = [3] /\
  localStorage s = Store (Some (Snapshot [])) false /\
  stored_events (localStorage s) = [] /\
  warnings s = [WarnSendFailed; WarnSendFailed; WarnSendFailed; WarnExhausted "0-k3x9q" 3] /\
  pending s = [] /\ timers s = [].
Proof. vm_compute. repeat split. Qed.

(** C2 at one input.  One event; the transport rejects the first attempt
    and accepts every later one ([k = 1 < 3]); the second attempt takes
    longer than the first backoff delay.  The retry timer then starts a
    third attempt while the second is in flight, and both are accepted: two
    successful deliveries of the one event. *)
Theorem slow_acceptance_delivers_twice :
  let s := run (new (Store None false) 3 0)
               [Enqueue "/track/" save_test "k3x9q"; Tick 50; Settle 0 false;
                Tick 1000; Fire; Settle 0 true; Settle 0 true] in
  delivered s = [0%nat; 0%nat] /\
  sent s = [mkAttempt 0 false 0; mkAttempt 0 false 50; mkAttempt 0 false 1050] /\
  queue s = [] /\ pending s = [].
Proof. vm_compute. repeat split. Qed.

(** C4 at one input.  The first attempt fails at time 50 with retries left.
    The drain loop hands the event to the transport again at once, at time
    50, while the timer [retry] set is due only at 1050. *)
Theorem failed_head_retried_without_delay :
  let s := run (new (Store None false) 3 0)
               [Enqueue "/track/" save_test "k3x9q"; Tick 50; Settle 0 false] in
  sent s = [mkAttempt 0 false 0; mkAttempt 0 false 50] /\
  now s = 50 /\ timers s = [1050] /\
  pending s = [mkPending 0 true] /\ map retries (heap s) = [1].
Proof. vm_compute. repeat split. Qed.

(** A flush whose beacon call throws spools the event; the next
    construction loads it once and clears the key. *)
Example flush_failure_replayed_once :
  let s := run (new (Store None false) DEFAULT_MAX_RETRIES 0)
               [Enqueue "/track/" save_test "k3x9q"; Flush (fun _ => true)] in
  let s' := new (localStorage s) DEFAULT_MAX_RETRIES 10 in
  map endpoint (stored_events (localStorage s)) = ["/track/"] /\
  map endpoint (contents s') = ["/track/"] /\
  localStorage s' = Store None false /\
  contents (new (localStorage s') DEFAULT_MAX_RETRIES 20) = [].
Proof. vm_compute. repeat split. Qed.

End EventQueueScenarios.

Section EventQueueInvariant.
Import EventQueue.

Lemma queue_inv_frame (s s' : State) :
  heap s' = heap s -> queue s' = queue s -> pending s' = pending s ->
  maxRetries s' = maxRetries s -> queue_inv s -> queue_inv s'.
Proof.
  unfold queue_inv, retry_bounded, pending_at_head.
  intros -> -> -> ->. trivial.
Qed.

Lemma head_not_in_tail {A} (q : list A) (x : A) :
  NoDup q -> head q = Some x -> x ∉ tail q.
Proof.
  destruct q as [|y q]; [discriminate|]. cbn. intros Hnd [= ->].
  now apply NoDup_cons in Hnd.
Qed.

Lemma in_tail {A} (q : list A) (x : A) : x ∈ tail q -> x ∈ q.
Proof. destruct q; cbn; [trivial|]. apply list_elem_of_further. Qed.

Lemma NoDup_tail {A} (q : list A) : NoDup q -> NoDup (tail q).
Proof.
  destruct q; cbn; [trivial|]. intros H. now apply NoDup_cons in H.
Qed.

Lemma queue_inv_shift (s : State) : queue_inv s -> queue_inv (shift s).
Proof.
  intros (Hmax & Hnd & Hb & Hp). unfold queue_inv, shift. cbn.
  split; [exact Hmax|]. split; [now apply NoDup_tail|]. split.
  - intros r Hr. apply Hb. now apply in_tail.
  - eapply Forall_impl; [exact Hp|]. intros p [Hlen Hhead]. split; [exact Hlen|].
    cbn. intros Hin. exfalso.
    apply (head_not_in_tail (queue s) (event p)); auto using in_tail.
Qed.

Lemma queue_inv_processNext (loop : bool) (s : State) :
  queue_inv s -> queue_inv (processNext loop s).
Proof.
  intros Hs. unfold processNext. destruct (queue s) as [|r q] eqn:Eq; [exact Hs|].
  destruct Hs as (Hmax & Hnd & Hb & Hp).
  unfold queue_inv, await_sendEvent. cbn.
  split; [exact Hmax|]. split; [exact Hnd|]. split; [exact Hb|].
  apply Forall_app. split; [exact Hp|]. constructor; [|constructor].
  split; cbn.
  - destruct (Hb r) as (e & He & _); [rewrite Eq; left|].
    now apply lookup_lt_Some in He.
  - intros _. now rewrite Eq.
Qed.

Lemma queue_inv_process_loop (s : State) :
  queue_inv s -> queue_inv (process_loop s).
Proof.
  intros Hs. unfold process_loop. destruct (queue s) eqn:Eq.
  - now apply (queue_inv_frame s).
  - now apply queue_inv_processNext.
Qed.

Lemma queue_inv_process (s : State) : queue_inv s -> queue_inv (process s).
Proof.
  intros Hs. unfold process. destruct (processing s); [exact Hs|].
  apply queue_inv_process_loop. now apply (queue_inv_frame s).
Qed.

Lemma queue_inv_saveToLocalStorage (s : State) :
  queue_inv s -> queue_inv (saveToLocalStorage s).
Proof.
  intros Hs. unfold saveToLocalStorage.
  destruct (localStorage s) as [|item full]; [now apply (queue_inv_frame s)|].
  destruct full; now apply (queue_inv_frame s).
Qed.

Lemma queue_inv_retry (r : nat) (s : State) :
  queue_inv s ->
  (r ∈ queue s -> head (queue s) = Some r) ->
  queue_inv (retry r s).
Proof.
  intros Hs Hr. unfold retry.
  destruct (heap s !! r) as [e|] eqn:He; [|exact Hs].
  pose proof (lookup_lt_Some _ _ _ He) as Hlen.
  destruct Hs as (Hmax & Hnd & Hb & Hp). cbn [maxRetries set_heap retries].
  destruct (Z.leb_spec (maxRetries s) (retries e + 1)) as [Hex|Hleft].
  - apply queue_inv_saveToLocalStorage.
    unfold queue_inv, retry_bounded, pending_at_head. cbn.
    split; [exact Hmax|]. split; [now apply NoDup_tail|]. split.
    + intros r' Hr'.
      assert (r' <> r).
      { intros ->. apply (head_not_in_tail (queue s) r); auto using in_tail. }
      rewrite list_lookup_insert_ne by congruence. apply Hb. now apply in_tail.
    + eapply Forall_impl; [exact Hp|]. intros p [Hl Hh].
      rewrite length_insert. split; [exact Hl|].
      intros Hin. exfalso.
      apply (head_not_in_tail (queue s) (event p)); auto using in_tail.
  - unfold queue_inv, retry_bounded, pending_at_head, setTimeout. cbn.
    split; [exact Hmax|]. split; [exact Hnd|]. split.
    + intros r' Hr'. destruct (decide (r' = r)) as [->|Hne].
      * rewrite list_lookup_insert_eq by exact Hlen.
        eexists. split; [reflexivity|]. cbn. lia.
      * rewrite list_lookup_insert_ne by congruence. now apply Hb.
    + eapply Forall_impl; [exact Hp|]. intros p [Hl Hh].
      rewrite length_insert. now split.
Qed.

Lemma queue_inv_settle (k : nat) (ok : bool) (s : State) :
  queue_inv s -> queue_inv (step s (Settle k ok)).
Proof.
  intros Hs. cbn [step].
  destruct (pending s !! k) as [p|] eqn:Ek; [|exact Hs].
  assert (Hp : pending_at_head s p).
  { destruct Hs as (_ & _ & _ & Hall).
    rewrite Forall_forall in Hall. apply Hall. eapply list_elem_of_lookup_2, Ek. }
  assert (Hs' : queue_inv (set_pending (delete k (pending s)) s)).
  { destruct Hs as (Hmax & Hnd & Hb & Hall).
    unfold queue_inv. cbn. repeat split; try assumption.
    now apply Forall_delete. }
  unfold processNext_resume.
  assert (H1 : queue_inv
    (if ok
     then shift (set_delivered (delivered (set_pending (delete k (pending s)) s) ++ [event p])
                   (set_pending (delete k (pending s)) s))
     else retry (event p) (warn WarnSendFailed (set_pending (delete k (pending s)) s)))).
  { destruct ok.
    - apply queue_inv_shift. now apply (queue_inv_frame (set_pending (delete k (pending s)) s)).
    - apply queue_inv_retry.
      + now apply (queue_inv_frame (set_pending (delete k (pending s)) s)).
      + exact (proj2 Hp). }
  destruct (fromLoop p); [now apply queue_inv_process_loop|exact H1].
Qed.

Lemma imap_pair_snd (q : list nat) : map snd (imap pair q) = q.
Proof.
  enough (H : forall g : nat -> nat, map snd (imap (fun i x => (g i, x)) q) = q)
    by exact (H (fun i => i)).
  induction q as [|x q IH]; intros g; cbn; [reflexivity|].
  f_equal. apply (IH (g ∘ S)).
Qed.

Lemma flush_fold (throws : nat -> bool) (l : list (nat * nat)) : forall acc : State,
  let s2 := fold_left (flush_event throws) l acc in
  heap s2 = heap acc /\ pending s2 = pending acc /\ maxRetries s2 = maxRetries acc /\
  exists kept, queue s2 = queue acc ++ kept /\ kept `sublist_of` map snd l.
Proof.
  induction l as [|ir l IH]; intros acc; cbn.
  - repeat split. exists []. rewrite app_nil_r. split; [reflexivity|constructor].
  - destruct (IH (flush_event throws acc ir)) as (Hh & Hp & Hm & kept & Hq & Hsub).
    rewrite Hh, Hp, Hm, Hq. unfold flush_event.
    destruct (throws (fst ir)); cbn.
    + repeat split. exists (snd ir :: kept). rewrite <- app_assoc. split; [reflexivity|].
      now apply sublist_skip.
    + repeat split. exists kept. split; [reflexivity|]. now apply sublist_cons.
Qed.

Lemma head_sublist {A} (kept q : list A) (x : A) :
  kept `sublist_of` q -> NoDup q -> head q = Some x -> x ∈ kept -> head kept = Some x.
Proof.
  destruct q as [|y q]; [discriminate|]. cbn. intros Hsub Hnd [= ->] Hin.
  apply sublist_cons_r in Hsub. destruct Hsub as [Hsub|(l' & -> & _)]; [|reflexivity].
  apply NoDup_cons in Hnd. destruct Hnd as [Hnot _]. exfalso. apply Hnot.
  eapply elem_of_sublist; eassumption.
Qed.

Lemma queue_inv_flush (throws : nat -> bool) (s : State) :
  queue_inv s -> queue_inv (flush throws s).
Proof.
  intros (Hmax & Hnd & Hb & Hp). unfold flush.
  destruct (flush_fold throws (imap pair (queue s)) (set_queue [] s))
    as (Hh & Hpe & Hm & kept & Hq & Hsub).
  cbn in Hh, Hpe, Hm, Hq. rewrite imap_pair_snd in Hsub.
  set (s2 := fold_left _ _ _) in *.
  assert (H2 : queue_inv s2).
  { unfold queue_inv, retry_bounded, pending_at_head. rewrite Hh, Hpe, Hm, Hq.
    split; [exact Hmax|]. split; [eapply sublist_NoDup; eassumption|]. split.
    - intros r Hr. apply Hb. eapply elem_of_sublist; eassumption.
    - eapply Forall_impl; [exact Hp|]. intros p [Hl Hh']. split; [exact Hl|].
      intros Hin. apply (head_sublist kept (queue s)); auto.
      apply Hh'. eapply elem_of_sublist; eassumption. }
  destruct (queue s2); [exact H2|now apply queue_inv_saveToLocalStorage].
Qed.

Lemma queue_inv_enqueue (ep : string) (d : gmap string Value) (rnd : string) (s : State) :
  queue_inv s -> queue_inv (enqueue ep d rnd s).
Proof.
  intros (Hmax & Hnd & Hb & Hp). unfold enqueue.
  set (ev := mkEvent _ _ _ _ _).
  set (s1 := push _ _).
  assert (Hfresh : forall r, r ∈ queue s -> (r < length (heap s))%nat).
  { intros r Hr. destruct (Hb r Hr) as (e & He & _). now apply lookup_lt_Some in He. }
  assert (H1 : queue_inv s1).
  { unfold queue_inv, retry_bounded, pending_at_head. subst s1. cbn.
    split; [exact Hmax|]. split; [|split].
    - apply NoDup_app. split; [exact Hnd|]. split; [|apply NoDup_singleton].
      intros r Hr Hr'. apply list_elem_of_singleton in Hr'. apply Hfresh in Hr. lia.
    - intros r Hr. apply elem_of_app in Hr. destruct Hr as [Hr|Hr].
      + destruct (Hb r Hr) as (e & He & Hlt). exists e. split; [|exact Hlt].
        now apply lookup_app_l_Some.
      + apply list_elem_of_singleton in Hr. subst r. exists ev. split; [|cbn; lia].
        now apply list_lookup_middle.
    - eapply Forall_impl; [exact Hp|]. intros p [Hl Hh]. rewrite length_app. cbn.
      split; [lia|]. intros Hin. apply elem_of_app in Hin. destruct Hin as [Hin|Hin].
      + specialize (Hh Hin). destruct (queue s); [discriminate|exact Hh].
      + apply list_elem_of_singleton in Hin. lia. }
  destruct (processing s1); [exact H1|now apply queue_inv_process].
Qed.

Lemma queue_inv_step (s : State) (a : Action) : queue_inv s -> queue_inv (step s a).
Proof.
  intros Hs. destruct a as [ep d rnd| |throws|k ok| |dt].
  - now apply queue_inv_enqueue.
  - now apply queue_inv_process.
  - now apply queue_inv_flush.
  - now apply queue_inv_settle.
  - cbn [step]. destruct (earliest (timers s)) as [[i due]|]; [|exact Hs].
    destruct (due <=? now s); [|exact Hs]. unfold timerCallback.
    cbn [processing set_timers].
    destruct (processing s).
    + apply queue_inv_processNext. now apply (queue_inv_frame s).
    + now apply (queue_inv_frame s).
  - now apply (queue_inv_frame s).
Qed.

Lemma queue_inv_run (schedule : list Action) : forall s : State,
  queue_inv s -> queue_inv (run s schedule).
Proof.
  induction schedule as [|a schedule IH]; intros s Hs; cbn; [exact Hs|].
  apply IH. now apply queue_inv_step.
Qed.

Lemma maxRetries_saveToLocalStorage s : maxRetries (saveToLocalStorage s) = maxRetries s.
Proof.
  unfold saveToLocalStorage. destruct (localStorage s) as [|item []]; reflexivity.
Qed.

Lemma maxRetries_processNext loop s : maxRetries (processNext loop s) = maxRetries s.
Proof. unfold processNext. now destruct (queue s). Qed.

Lemma maxRetries_process_loop s : maxRetries (process_loop s) = maxRetries s.
Proof.
  unfold process_loop. destruct (queue s) eqn:E; [reflexivity|].
  apply maxRetries_processNext.
Qed.

Lemma maxRetries_process s : maxRetries (process s) = maxRetries s.
Proof.
  unfold process. destruct (processing s); [reflexivity|].
  now rewrite maxRetries_process_loop.
Qed.

Lemma maxRetries_retry r s : maxRetries (retry r s) = maxRetries s.
Proof.
  unfold retry. destruct (heap s !! r); [|reflexivity]. cbv zeta.
  destruct (_ <=? _); [|reflexivity]. now rewrite maxRetries_saveToLocalStorage.
Qed.

Lemma maxRetries_step (s : State) (a : Action) : maxRetries (step s a) = maxRetries s.
Proof.
  destruct a as [ep d rnd| |throws|k ok| |dt]; cbn [step].
  - unfold enqueue. match goal with |- context [processing ?x] => destruct (processing x) end;
      [reflexivity|]. now rewrite maxRetries_process.
  - apply maxRetries_process.
  - unfold flush.
    destruct (flush_fold throws (imap pair (queue s)) (set_queue [] s)) as (_ & _ & Hm & _).
    cbv zeta in *. set (s2 := fold_left _ _ _) in *.
    destruct (queue s2); [exact Hm|]. now rewrite maxRetries_saveToLocalStorage.
  - destruct (pending s !! k) as [p|]; [|reflexivity]. unfold processNext_resume.
    assert (E : maxRetries
      (if ok
       then shift (set_delivered (delivered (set_pending (delete k (pending s)) s) ++ [event p])
                     (set_pending (delete k (pending s)) s))
       else retry (event p) (warn WarnSendFailed (set_pending (delete k (pending s)) s)))
      = maxRetries s).
    { destruct ok; [reflexivity|]. now rewrite maxRetries_retry. }
    destruct (fromLoop p); [now rewrite maxRetries_process_loop|exact E].
  - destruct (earliest (timers s)) as [[i due]|]; [|reflexivity].
    destruct (due <=? now s); [|reflexivity]. unfold timerCallback. cbn [processing set_timers].
    destruct (processing s); [|reflexivity]. now rewrite maxRetries_processNext.
  - reflexivity.
Qed.

Lemma maxRetries_run (schedule : list Action) : forall s : State,
  maxRetries (run s schedule) = maxRetries s.
Proof.
  induction schedule as [|a schedule IH]; intros s; [reflexivity|].
  change (run s (a :: schedule)) with (run (step s a) schedule).
  now rewrite IH, maxRetries_step.
Qed.

(** A queue constructed over a storage that holds no events. *)
Lemma new_without_snapshot (ls : LocalStorage) (maxR t0 : Z) :
  stored_events ls = [] ->
  let s := new ls maxR t0 in
  heap s = [] /\ queue s = [] /\ processing s = false /\ maxRetries s = maxR /\
  timers s = [] /\ pending s = [] /\ sent s = [] /\ delivered s = [].
Proof.
  destruct ls as [|[[| | |events]|] full]; cbn; intros H; subst; repeat split.
Qed.

(** C10.  In a queue constructed with [maxRetries >= 1] over a storage that
    holds no snapshot, after any sequence of calls of [enqueue], [process]
    and [flush], transport outcomes, timers and time steps, every event in
    the in-memory queue has a retry counter below [maxRetries]; so an event
    whose counter has reached [maxRetries] is not in the queue after the
    step that raised it. *)
Theorem queued_events_have_retries_left
    (ls : LocalStorage) (maxR t0 : Z) (schedule : list Action) :
  1 <= maxR ->
  stored_events ls = [] ->
  let s := run (new ls maxR t0) schedule in
  (forall r, r ∈ queue s -> exists e, heap s !! r = Some e /\ retries e < maxR) /\
  (forall r e, heap s !! r = Some e -> maxR <= retries e -> r ∉ queue s).
Proof.
  intros Hmax Hls s.
  destruct (new_without_snapshot ls maxR t0 Hls) as (Hh & Hq & _ & Hm & _ & Hp & _).
  assert (Hinv : queue_inv s).
  { apply queue_inv_run. unfold queue_inv, retry_bounded. rewrite Hq, Hp, Hm.
    split; [lia|]. split; [constructor|]. split; [|constructor].
    intros r Hr. inversion Hr. }
  assert (Hmr : maxRetries s = maxR).
  { unfold s. now rewrite maxRetries_run. }
  destruct Hinv as (_ & _ & Hb & _). unfold retry_bounded in Hb. rewrite Hmr in Hb.
  split; [exact Hb|].
  intros r e He Hge Hin. destruct (Hb r Hin) as (e' & He' & Hlt).
  rewrite He in He'. injection He' as <-. lia.
Qed.

Lemma queued_events_have_retries_left_witness :
  let s := run (new (Store None false) 3 0) rejecting_run in
  (forall r, r ∈ queue s -> exists e, heap s !! r = Some e /\ retries e < 3) /\
  (forall r e, heap s !! r = Some e -> 3 <= retries e -> r ∉ queue s).
Proof.
  apply (queued_events_have_retries_left (Store None false) 3 0 rejecting_run).
  - lia.
  - reflexivity.
Defined.

End EventQueueInvariant.

Section EventQueueOrder.
Import EventQueue.

Lemma drained_process_loop (n : nat) (s : State) :
  processing s = true ->
  timers s = [] -> queue s = seq n (length (heap s) - n) -> (n <= length (heap s))%nat ->
  pending s = [] -> map target (sent s) = seq 0 n ->
  drained n (process_loop s).
Proof.
  intros Hproc Ht Hq Hn Hp Hsent. unfold process_loop, processNext.
  destruct (queue s) as [|r q] eqn:Eq.
  - assert (length (heap s) - n = 0)%nat
      by (destruct (length (heap s) - n)%nat; [reflexivity|discriminate]).
    unfold drained. cbn. rewrite Eq, H. repeat split; auto; lia.
  - assert (n < length (heap s) /\ r = n)%nat as [Hlt ->].
    { destruct (length (heap s) - n)%nat eqn:E; [discriminate|]. cbn in Hq.
      injection Hq as -> _. split; [lia|reflexivity]. }
    unfold drained, await_sendEvent. cbn. rewrite Eq, Hp, Hproc, map_app, Hsent.
    repeat split; auto. change (0%nat :: seq 1 n) with (seq 0 (S n)).
    now rewrite seq_S.
Qed.

Lemma drained_frame (n : nat) (s s' : State) :
  timers s' = timers s -> queue s' = queue s -> heap s' = heap s ->
  processing s' = processing s -> pending s' = pending s -> sent s' = sent s ->
  drained n s -> drained n s'.
Proof. unfold drained. intros -> -> -> -> -> ->. trivial. Qed.

Lemma drained_step (n : nat) (s : State) (a : Action) :
  accepting a -> drained n s -> exists n', drained n' (step s a).
Proof.
  intros Ha Hs. pose proof Hs as (Ht & Hq & Hproc).
  destruct a as [ep d rnd| |throws|k ok| |dt]; cbn [step].
  - (* enqueue *)
    unfold enqueue. set (ev := mkEvent _ _ _ _ _). set (s1 := push _ _).
    assert (Hh1 : length (heap s1) = S (length (heap s))).
    { subst s1. cbn. rewrite length_app. cbn. lia. }
    assert (Hn : (n <= length (heap s))%nat)
      by (revert Hproc; destruct (processing s); intros (? & _); lia).
    assert (Hq1 : queue s1 = seq n (length (heap s1) - n)).
    { rewrite Hh1. subst s1. cbn. rewrite Hq.
      replace (S (length (heap s)) - n)%nat with (S (length (heap s) - n)) by lia.
      rewrite seq_S. do 2 f_equal. lia. }
    assert (Ep1 : processing s1 = processing s) by reflexivity.
    exists n. destruct (processing s) eqn:Ep; rewrite Ep1; rewrite ?Ep in Hproc.
    + unfold drained. rewrite Ep1, Hq1, Hh1.
      destruct Hproc as (Hlt & Hp & Hsent). repeat split; auto.
    + unfold process. rewrite Ep1.
      destruct Hproc as (Hlen & Hp & Hsent).
      apply drained_process_loop; auto.
      change (heap (set_processing true s1)) with (heap s1). lia.
  - (* process *)
    exists n. unfold process. destruct (processing s) eqn:Ep; [exact Hs|].
    rewrite ?Ep in Hproc. destruct Hproc as (Hlen & Hp & Hsent).
    apply drained_process_loop; auto. cbn. lia.
  - destruct Ha.
  - (* settle *)
    cbn in Ha. subst ok.
    destruct (processing s) eqn:Ep; rewrite ?Ep in Hproc.
    + destruct Hproc as (Hlt & Hp & Hsent). rewrite Hp.
      destruct k as [|k]; cbn [lookup list_lookup]; [|now exists n].
      exists (S n). unfold processNext_resume. cbn [fromLoop event].
      apply drained_process_loop; cbn; auto; try lia.
      rewrite Hq. destruct (length (heap s) - n)%nat eqn:E; [lia|]. cbn.
      f_equal. lia.
    + destruct Hproc as (Hlen & Hp & Hsent). rewrite Hp. cbn. now exists n.
  - (* fire *)
    rewrite Ht. cbn. now exists n.
  - (* tick *)
    exists n. now apply (drained_frame n s).
Qed.

Lemma content_step (s : State) (a : Action) :
  accepting a ->
  map content (heap (step s a)) = map content (heap s) ++ enqueued [a].
Proof.
  intros Ha. destruct a as [ep d rnd| |throws|k ok| |dt]; cbn [step enqueued omap list_omap].
  - unfold enqueue. set (s1 := push _ _).
    assert (H1 : map content (heap s1) = map content (heap s) ++ [(ep, d)]).
    { subst s1. cbn. now rewrite map_app. }
    destruct (processing s1); [exact H1|].
    unfold process, process_loop, processNext.
    destruct (processing s1); [exact H1|]. cbn [queue set_processing].
    destruct (queue s1); exact H1.
  - rewrite app_nil_r. unfold process, process_loop, processNext.
    destruct (processing s); [reflexivity|]. cbn [queue set_processing].
    destruct (queue s); reflexivity.
  - destruct Ha.
  - rewrite app_nil_r. cbn in Ha. subst ok.
    destruct (pending s !! k) as [p|]; [|reflexivity].
    unfold processNext_resume, process_loop, processNext.
    destruct (fromLoop p); [|reflexivity]. cbn [queue shift set_queue].
    destruct (tail _); reflexivity.
  - rewrite app_nil_r. destruct (earliest (timers s)) as [[i due]|]; [|reflexivity].
    destruct (due <=? now s); [|reflexivity]. unfold timerCallback, processNext.
    cbn [processing set_timers]. destruct (processing s); [|reflexivity].
    cbn [queue set_timers]. destruct (queue s); reflexivity.
  - rewrite app_nil_r. reflexivity.
Qed.

Lemma enqueued_app (l1 l2 : list Action) : enqueued (l1 ++ l2) = enqueued l1 ++ enqueued l2.
Proof. unfold enqueued. apply omap_app. Qed.

Lemma drained_run (schedule : list Action) : forall (n : nat) (s : State),
  Forall accepting schedule -> drained n s ->
  (exists n', drained n' (run s schedule)) /\
  map content (heap (run s schedule)) = map content (heap s) ++ enqueued schedule.
Proof.
  induction schedule as [|a schedule IH]; intros n s Hall Hs.
  - cbn. split; [now exists n|]. now rewrite app_nil_r.
  - inversion Hall as [|? ? Ha Hrest]; subst.
    destruct (drained_step n s a Ha Hs) as [n1 H1].
    destruct (IH n1 (step s a) Hrest H1) as [Hd Hc].
    change (run s (a :: schedule)) with (run (step s a) schedule).
    split; [exact Hd|]. rewrite Hc, (content_step s a Ha).
    rewrite <- app_assoc. f_equal. symmetry. apply (enqueued_app [a] schedule).
Qed.

Lemma omap_lookup_prefix {A B} (f : A -> B) (m : nat) : forall (pre l : list A),
  (m <= length l)%nat ->
  omap (fun r => f <$> (pre ++ l) !! r) (seq (length pre) m) = take m (map f l).
Proof.
  induction m as [|m IH]; intros pre l Hm; [reflexivity|].
  destruct l as [|x l]; [cbn in Hm; lia|].
  cbn [seq omap list_omap]. rewrite list_lookup_middle by reflexivity. cbn. f_equal.
  specialize (IH (pre ++ [x]) l).
  rewrite <- app_assoc, length_app, Nat.add_1_r in IH. apply IH. cbn in Hm. lia.
Qed.

Lemma observed_prefix (s : State) (m : nat) :
  map target (sent s) = seq 0 m -> (m <= length (heap s))%nat ->
  observed s = take m (map content (heap s)).
Proof.
  intros Hsent Hm. unfold observed.
  transitivity (omap (fun r => content <$> heap s !! r) (map target (sent s))).
  - generalize (sent s). intros l. induction l as [|a l IH]; [reflexivity|].
    cbn. rewrite IH. reflexivity.
  - rewrite Hsent. apply (omap_lookup_prefix content m [] (heap s) Hm).
Qed.

(** C5.  On a queue constructed over a storage without events, whatever the
    interleaving of [enqueue] calls, accepted attempts, timers and time
    steps: the transport has seen the first [n] enqueued events, each once
    and in the order of the [enqueue] calls, as attempts on the objects
    [0 .. n-1]; and once no attempt is in flight it has seen all of them. *)
Theorem accepted_events_observed_in_order
    (ls : LocalStorage) (maxR t0 : Z) (schedule : list Action) :
  Forall accepting schedule ->
  stored_events ls = [] ->
  let s := run (new ls maxR t0) schedule in
  exists n : nat,
    observed s = take n (enqueued schedule) /\
    map target (sent s) = seq 0 n /\
    (pending s = [] -> observed s = enqueued schedule /\ queue s = []).
Proof.
  intros Hall Hls s.
  destruct (new_without_snapshot ls maxR t0 Hls) as (Hh & Hq & Hproc & _ & Ht & Hp & Hsent & _).
  assert (H0 : drained 0 (new ls maxR t0)).
  { unfold drained. rewrite Ht, Hq, Hh, Hproc, Hp, Hsent. repeat split. }
  destruct (drained_run schedule 0 _ Hall H0) as [[n Hn] Hc].
  fold s in Hn, Hc. rewrite Hh in Hc. cbn in Hc.
  destruct Hn as (_ & Hqn & Hcase).
  destruct (processing s).
  - destruct Hcase as (Hlt & Hpn & Hs). exists (S n).
    split; [|split; [exact Hs|]].
    + rewrite <- Hc. apply observed_prefix; [exact Hs|lia].
    + rewrite Hpn. discriminate.
  - destruct Hcase as (Hlen & Hpn & Hs). exists n.
    assert (Hobs : observed s = take n (enqueued schedule)).
    { rewrite <- Hc. apply observed_prefix; [exact Hs|lia]. }
    split; [exact Hobs|]. split; [exact Hs|]. intros _. split.
    + rewrite Hobs, <- Hc, Hlen, <- (length_map content). apply firstn_all.
    + rewrite Hqn, Hlen, Nat.sub_diag. reflexivity.
Qed.

(** The scenario of the specification: three events, a transport that
    always succeeds. *)
Lemma accepted_events_observed_in_order_witness :
  let s := run (new (Store None false) 3 0) three_events in
  exists n : nat,
    observed s = take n (enqueued three_events) /\
    map target (sent s) = seq 0 n /\
    (pending s = [] -> observed s = enqueued three_events /\ queue s = []).
Proof.
  apply (accepted_events_observed_in_order (Store None false) 3 0 three_events).
  - repeat constructor.
  - reflexivity.
Defined.

Example three_events_delivered :
  let s := run (new (Store None false) 3 0) three_events in
  delivered s = [0; 1; 2]%nat /\ queue s = [] /\ pending s = [] /\
  localStorage s = Store None false /\ processing s = false.
Proof. vm_compute. repeat split. Qed.

End EventQueueOrder.

Section EventQueueRetry.
Import EventQueue.

(** The backoff schedule: 1 s before the first retry, 2 s before the second,
    4 s from the third on. *)
Lemma retry_delay_schedule :
  retry_delay 1 = 1000 /\ retry_delay 2 = 2000 /\
  (forall n : Z, 3 <= n -> retry_delay n = 4000).
Proof.
  repeat split. intros n Hn. unfold retry_delay, array_get.
  destruct (Z.ltb_spec (n - 1) 0); [lia|].
  destruct (Z.to_nat (n - 1)) as [|[|[|i]]] eqn:E; try lia; reflexivity.
Qed.

(** When the attempt the drain loop awaits fails with retries left, the
    same event goes to the transport again in the same step, at the same
    time; the timer of [retry] is set besides. *)
Lemma failed_attempt_reissued_at_once
    (s : State) (k r : nat) (e : QueuedEvent) (q : list nat) :
  pending s !! k = Some (mkPending r true) ->
  queue s = r :: q ->
  heap s !! r = Some e ->
  retries e + 1 < maxRetries s ->
  let s' := step s (Settle k false) in
  sent s' = sent s ++ [mkAttempt r false (now s)] /\
  timers s' = timers s ++ [now s + retry_delay (retries e + 1)] /\
  now s' = now s /\ queue s' = r :: q.
Proof.
  intros Hk Hq He Hlt. cbn [step]. rewrite Hk.
  unfold processNext_resume, retry. cbn [event fromLoop heap warn set_pending].
  rewrite He. cbv zeta. cbn [maxRetries set_heap retries warn set_pending].
  destruct (Z.leb_spec (maxRetries s) (retries e + 1)); [lia|].
  unfold process_loop, processNext, setTimeout, await_sendEvent. cbn. rewrite Hq.
  cbn. repeat split. exact Hq.
Qed.

(** When the failure exhausts the head event, [retry] shifts it out of the
    queue before it saves: the snapshot holds the rest of the queue and not
    the event. *)
Lemma retry_exhausted_drops_event
    (s : State) (r : nat) (e : QueuedEvent) (q : list nat) (item : option StoredText) :
  queue s = r :: q ->
  NoDup (queue s) ->
  heap s !! r = Some e ->
  maxRetries s <= retries e + 1 ->
  localStorage s = Store item false ->
  let s' := retry r s in
  queue s' = q /\ (r ∉ q) /\
  localStorage s' = Store (Some (Snapshot (omap (fun r' => heap s !! r') q))) false.
Proof.
  intros Hq Hnd He Hex Hls. unfold retry. rewrite He. cbv zeta.
  cbn [maxRetries set_heap retries].
  destruct (Z.leb_spec (maxRetries s) (retries e + 1)); [|lia].
  rewrite Hq in Hnd. apply NoDup_cons in Hnd. destruct Hnd as [Hnot _].
  unfold saveToLocalStorage. cbn. rewrite Hls. cbn. rewrite Hq. cbn.
  split; [reflexivity|]. split; [exact Hnot|]. do 3 f_equal.
  clear Hq. induction q as [|x q IH]; [reflexivity|].
  apply not_elem_of_cons in Hnot. destruct Hnot as [Hne Hnot]. cbn.
  rewrite list_lookup_insert_ne by congruence. now rewrite IH.
Qed.

(** With a transport that settles each attempt before anything else
    happens, [k] rejections with retries left followed by an acceptance
    deliver the event once and empty the queue. *)
Lemma prompt_failures (k : nat) : forall (s : State) (r : nat) (e : QueuedEvent),
  queue s = [r] -> pending s = [mkPending r true] -> heap s !! r = Some e ->
  retries e + Z.of_nat k < maxRetries s ->
  let s' := run s (repeat (Settle 0 false) k) in
  queue s' = [r] /\ pending s' = [mkPending r true] /\
  (exists e', heap s' !! r = Some e' /\ retries e' = retries e + Z.of_nat k) /\
  delivered s' = delivered s /\ maxRetries s' = maxRetries s /\
  length (sent s') = (length (sent s) + k)%nat.
Proof.
  induction k as [|k IH]; intros s r e Hq Hp He Hlt.
  - cbn. repeat split; auto. exists e. split; [exact He|lia].
  - change (run s (repeat (Settle 0 false) (S k)))
      with (run (step s (Settle 0 false)) (repeat (Settle 0 false) k)).
    set (s1 := step s (Settle 0 false)).
    pose proof (lookup_lt_Some _ _ _ He) as Hlen.
    assert (H1 : queue s1 = [r] /\ pending s1 = [mkPending r true] /\
                 heap s1 = <[r := mkEvent (id e) (endpoint e) (data e) (timestamp e)
                                          (retries e + 1)]> (heap s) /\
                 delivered s1 = delivered s /\ maxRetries s1 = maxRetries s /\
                 length (sent s1) = S (length (sent s))).
    { subst s1. cbn [step]. rewrite Hp. cbn [lookup list_lookup].
      unfold processNext_resume, retry. cbn [event fromLoop heap warn set_pending].
      rewrite He. cbv zeta. cbn [maxRetries set_heap retries warn set_pending].
      destruct (Z.leb_spec (maxRetries s) (retries e + 1)); [lia|].
      unfold process_loop, processNext, setTimeout, await_sendEvent. cbn. rewrite Hq.
      cbn. rewrite length_app. cbn. repeat split; try exact Hq. lia. }
    destruct H1 as (Hq1 & Hp1 & Hh1 & Hd1 & Hm1 & Hs1).
    destruct (IH s1 r (mkEvent (id e) (endpoint e) (data e) (timestamp e) (retries e + 1)))
      as (Hq' & Hp' & (e' & He' & Hr') & Hd' & Hm' & Hs'); auto.
    + rewrite Hh1. now apply list_lookup_insert_eq.
    + rewrite Hm1. cbn. lia.
    + repeat split; auto; try congruence; [|lia].
      exists e'. split; [exact He'|]. cbn in Hr'. lia.
Qed.

Lemma prompt_retries_deliver_once (full : bool) (maxR t0 : Z) (k : nat)
    (ep : string) (d : gmap string Value) (rnd : string) :
  Z.of_nat k < maxR ->
  let s := run (new (Store None full) maxR t0)
               (Enqueue ep d rnd :: repeat (Settle 0 false) k ++ [Settle 0 true]) in
  delivered s = [0%nat] /\ queue s = [] /\ pending s = [] /\ processing s = false /\
  length (sent s) = S k.
Proof.
  intros Hk s. subst s.
  change (run ?s0 (?a :: ?l)) with (run (step s0 a) l).
  unfold run. rewrite fold_left_app. fold (run (step (new (Store None full) maxR t0)
    (Enqueue ep d rnd)) (repeat (Settle 0 false) k)).
  set (s1 := step _ (Enqueue ep d rnd)).
  destruct (prompt_failures k s1 0%nat
              (mkEvent (generateEventId t0 rnd) ep d t0 0))
    as (Hq & Hp & _ & Hd & _ & Hs); try reflexivity; [cbn; lia|].
  set (s2 := run s1 _) in *. cbn [fold_left step]. rewrite Hp. cbn [lookup list_lookup].
  unfold processNext_resume, process_loop. cbn. rewrite Hq, Hd. cbn.
  repeat split; [now rewrite Hq|]. rewrite Hs. reflexivity.
Qed.

End EventQueueRetry.

Section TrackerFacts.
Import Tracker.

Lemma getVisitorId_frame (h : Host) (t : Tracker) :
  let t' := snd (getVisitorId h t) in
  visitorData t' = visitorData t /\ sessionData t' = sessionData t /\
  projectData t' = projectData t /\ lastEventId t' = lastEventId t.
Proof.
  unfold getVisitorId. destruct (truthy (cookie t)); cbn; [auto|].
  destruct (cookiesEnabled t); cbn; auto.
Qed.

Lemma buildTrackingEvent_frame (h : Host) (event : string)
    (properties : option (gmap string Value)) (t : Tracker) :
  let t' := snd (buildTrackingEvent h event properties t) in
  visitorData t' = visitorData t /\ sessionData t' = sessionData t /\
  projectData t' = projectData t /\ lastEventId t' = lastEventId t.
Proof.
  unfold buildTrackingEvent.
  pose proof (getVisitorId_frame h t) as H.
  destruct (getVisitorId h t) as [visitor t1]. exact H.
Qed.

Lemma sendFinalEvent_frame (h : Host) (t : Tracker) :
  let t' := sendFinalEvent h t in
  visitorData t' = visitorData t /\ sessionData t' = sessionData t /\
  projectData t' = projectData t.
Proof.
  unfold sendFinalEvent.
  match goal with |- context [buildTrackingEvent h ?e ?p t] =>
    pose proof (buildTrackingEvent_frame h e p t) as H;
    destruct (buildTrackingEvent h e p t) as [finalEvent t1] end.
  cbn in H. destruct H as (Hv & Hs & Hp & _).
  destruct (truthy (lastEventId t1)); cbn; auto.
Qed.

(** C9.  The unload handler completes normally; after it the session
    properties are empty, and the project and visitor properties are what
    they were before. *)
Theorem unload_clears_session_properties_only (h : Host) (t : Tracker) :
  exists t' : Tracker,
    unloadHandler h t = Normal t' /\
    sessionData t' = ∅ /\
    projectData t' = projectData t /\
    visitorData t' = visitorData t.
Proof.
  unfold unloadHandler, try_catch, andThen, detectSessionEnd, clearSessionProperties.
  eexists. split; [reflexivity|]. cbn.
  destruct (sendFinalEvent_frame h t) as (Hv & _ & Hp). auto.
Qed.

End TrackerFacts.
